(** * swiftly/concurrency.py: the [Concurrency] class

    A shallow embedding of [swiftly.concurrency.Concurrency] and the
    properties of its result collection: what the wrapper [_spawner]
    publishes, how [get_results] drains the queue into the result dict,
    and what [spawn] and [join] leave alone.

    Python objects that are shared by reference (the [_results] dict that
    [get_results] hands out) live in a heap indexed by locations; the
    engine keeps the location.  Units of work are opaque callables: a
    call either returns a value or raises an exception. *)

From stdpp Require Import gmap strings list fin_maps.

Local Open Scope Z_scope.

#[local] Set Warnings "-clear-no-such-hyp".

(** ** Python values *)

(** The part of the exception hierarchy that decides which handler of
    [_spawner] matches.  [EventletTimeout] is [eventlet.Timeout], which
    derives from [BaseException]; [UserException] stands for
    application classes written [class name(Exception)]. *)
Inductive exc_class :=
  | BaseException
  | SystemExit
  | KeyboardInterrupt
  | GeneratorExit
  | Exception
  | ArithmeticError
  | ZeroDivisionError
  | ValueError
  | TypeError
  | EventletTimeout
  | UserException (name : string).

#[global] Instance exc_class_eq_dec : EqDecision exc_class.
Proof. solve_decision. Defined.

(** Method resolution order: the class followed by its bases. *)
Definition mro (c : exc_class) : list exc_class :=
  match c with
  | BaseException => [BaseException]
  | SystemExit => [SystemExit; BaseException]
  | KeyboardInterrupt => [KeyboardInterrupt; BaseException]
  | GeneratorExit => [GeneratorExit; BaseException]
  | Exception => [Exception; BaseException]
  | ArithmeticError => [ArithmeticError; Exception; BaseException]
  | ZeroDivisionError =>
      [ZeroDivisionError; ArithmeticError; Exception; BaseException]
  | ValueError => [ValueError; Exception; BaseException]
  | TypeError => [TypeError; Exception; BaseException]
  | EventletTimeout => [EventletTimeout; BaseException]
  | UserException n => [UserException n; Exception; BaseException]
  end.

Definition issubclass (c d : exc_class) : bool := bool_decide (d ∈ mro c).

(** An exception instance: its class and its message. *)
Record exn := Exn { exn_class : exc_class; exn_message : string }.

#[global] Instance exn_eq_dec : EqDecision exn.
Proof. solve_decision. Defined.

(** A traceback object, as the handler sees it: the frames from the
    handler's frame down to the raise. *)
Definition traceback := list string.

Inductive value :=
  | VNone
  | VInt (n : Z)
  | VStr (s : string)
  | VType (c : exc_class)
  | VExc (e : exn)
  | VTraceback (tb : traceback).

#[global] Instance value_eq_dec : EqDecision value.
Proof. solve_decision. Defined.

(** Identifiers are dict keys: hashable values. *)
Inductive ident :=
  | IdInt (n : Z)
  | IdStr (s : string).

#[global] Instance ident_eq_dec : EqDecision ident.
Proof. solve_decision. Defined.

#[global] Instance ident_countable : Countable ident.
Proof.
  refine (inj_countable'
            (λ i, match i with IdInt n => inl n | IdStr s => inr s end)
            (λ x, match x with inl n => IdInt n | inr s => IdStr s end) _).
  by intros [].
Defined.

(** The tuple [(exc_type, exc_value, exc_tb, result)]. *)
Definition outcome : Type := value * value * value * value.

Definition exc_type (o : outcome) : value := o.1.1.1.
Definition exc_value (o : outcome) : value := o.1.1.2.
Definition exc_tb (o : outcome) : value := o.1.2.
Definition result (o : outcome) : value := o.2.

(** What calling [func] on its arguments does: return a value, or raise
    an exception that reaches the caller with a traceback. *)
Inductive call_result :=
  | Returned (v : value)
  | Raised (e : exn) (tb : traceback).

Definition callable := list value → list (string * value) → call_result.

(** ** Module level: the optional import of eventlet

    [try: from eventlet import GreenPool, sleep, Timeout] either binds
    the three names to eventlet's, or [GreenPool = None; sleep = None;
    Timeout = Exception]. *)
Record globals := Globals { eventlet_imported : bool }.

Definition Timeout (G : globals) : exc_class :=
  if eventlet_imported G then EventletTimeout else Exception.

(** Truth value of the module name [GreenPool]: a class, or [None]. *)
Definition GreenPool (G : globals) : bool := eventlet_imported G.

(** [except (Exception, Timeout)]: does the handler match [e]? *)
Definition except_Exception_Timeout (G : globals) (e : exn) : bool :=
  issubclass (exn_class e) Exception || issubclass (exn_class e) (Timeout G).

(** [sys.exc_info()] inside the handler of [e]. *)
Definition sys_exc_info (e : exn) (tb : traceback) : value * value * value :=
  (VType (exn_class e), VExc e, VTraceback tb).

(** ** The engine's state *)

(** A call of [self._spawner], on an identifier, a callable and its
    arguments, that was handed to the pool and has not finished yet. *)
Record task := Task {
  task_ident : ident;
  task_func : callable;
  task_args : list value;
  task_kwargs : list (string * value)
}.

(** Modelled from the spec: eventlet's [GreenPool] is an external
    collaborator, described by the spec as a pool that runs a callable
    without blocking the caller, waits for all running callables, and
    lets the caller yield.  The pool keeps the calls it was given that
    have not finished; whether such a call holds a slot or still waits
    for one is the pool's own matter. *)
Record green_pool := Pool {
  pool_size : Z;
  pool_running : list task
}.

Definition loc := positive.

Record Concurrency := Engine {
  concurrency : Z;
  _pool : option green_pool;
  _queue : list (ident * outcome);   (* queue.Queue, oldest entry first *)
  _results : loc                      (* reference to a dict *)
}.

(** The interpreter state seen by one engine: the dict objects and the
    engine's own attributes. *)
Record world := World {
  heap : gmap loc (gmap ident outcome);
  self : Concurrency
}.

(** The dict a reference denotes. *)
Definition deref (h : gmap loc (gmap ident outcome)) (l : loc)
  : gmap ident outcome := default ∅ (h !! l).

(** The engine's result dict, read through [self._results]. *)
Definition store (w : world) : gmap ident outcome :=
  deref (heap w) (_results (self w)).

Definition set_queue (q : list (ident * outcome)) (w : world) : world :=
  World (heap w)
    (Engine (concurrency (self w)) (_pool (self w)) q (_results (self w))).

Definition set_running (ts : list task) (w : world) : world :=
  World (heap w)
    (Engine (concurrency (self w))
       (match _pool (self w) with
        | Some p => Some (Pool (pool_size p) ts)
        | None => None
        end)
       (_queue (self w)) (_results (self w))).

Definition set_heap (h : gmap loc (gmap ident outcome)) (w : world) : world :=
  World h (self w).

(** ** The methods *)

(** [Concurrency(concurrency)]: [self.concurrency] is truthy when it is
    not zero; the dict is a newly allocated object. *)
Definition __init__ (G : globals) (h : gmap loc (gmap ident outcome))
    (c : Z) : world :=
  let l := fresh (dom h) in
  World (<[l := ∅]> h)
    (Engine c
       (if negb (c =? 0) && GreenPool G then Some (Pool c []) else None)
       [] l).

(** [self._queue.put(item)] *)
Definition Queue_put (item : ident * outcome) (w : world) : world :=
  set_queue (_queue (self w) ++ [item]) w.

(** [_spawner]: the first component is the exception that leaves the
    method, if one does. *)
Definition _spawner (G : globals) (id : ident) (func : callable)
    (args : list value) (kwargs : list (string * value)) (w : world)
  : option exn * world :=
  match func args kwargs with
  | Returned r => (None, Queue_put (id, (VNone, VNone, VNone, r)) w)
  | Raised e tb =>
      if except_Exception_Timeout G e
      then (None, Queue_put (id, (sys_exc_info e tb, VNone)) w)
      else (Some e, w)
  end.

(** Modelled from the spec: one pooled call runs to its end.  The
    limiter itself never fails: an exception that leaves the wrapper
    ends the call and is not handed to the engine. *)
Definition run_task (G : globals) (t : task) (w : world) : world :=
  (_spawner G (task_ident t) (task_func t) (task_args t) (task_kwargs t) w).2.

(** Modelled from the spec: the caller yields ([sleep()], or waiting in
    [waitall()]) and the scheduler lets pooled calls finish.  Which ones
    and in which order is the scheduler's choice, given here as a list
    of positions in the list of unfinished calls. *)
Fixpoint pool_switch (G : globals) (picks : list nat) (w : world) : world :=
  match picks with
  | [] => w
  | n :: picks' =>
      match _pool (self w) with
      | Some p =>
          match pool_running p !! n with
          | Some t =>
              pool_switch G picks'
                (run_task G t (set_running (delete n (pool_running p)) w))
          | None => pool_switch G picks' w
          end
      | None => w
      end
  end.

Definition running (w : world) : list task :=
  match _pool (self w) with
  | Some p => pool_running p
  | None => []
  end.

(** Modelled from the spec: [GreenPool.spawn_n(f, ...)] records the call
    and returns. *)
Definition spawn_n (t : task) (w : world) : world :=
  set_running (running w ++ [t]) w.

(** Modelled from the spec: [GreenPool.waitall()] returns when every
    call has finished; the scheduler picks an order, and the calls it
    did not pick finish oldest first. *)
Definition waitall (G : globals) (picks : list nat) (w : world) : world :=
  let w1 := pool_switch G picks w in
  pool_switch G (replicate (length (running w1)) 0%nat) w1.

(** [spawn] *)
Definition spawn (G : globals) (picks : list nat) (id : ident)
    (func : callable) (args : list value) (kwargs : list (string * value))
    (w : world) : option exn * world :=
  match _pool (self w) with
  | Some _ =>
      (None, pool_switch G picks (spawn_n (Task id func args kwargs) w))
  | None => _spawner G id func args kwargs w
  end.

(** [self._results[ident] = value]: the dict behind the reference is
    updated in place. *)
Definition results_setitem (id : ident) (v : outcome) (w : world) : world :=
  set_heap (<[_results (self w) := <[id := v]> (store w)]> (heap w)) w.

(** The loop of [get_results], run on the entries the queue holds:
    each [get(block=False)] takes the oldest entry, which is assigned
    into the dict; on the empty queue it raises [queue.Empty], which
    ends the loop. *)
Fixpoint get_results_loop (q : list (ident * outcome)) (w : world) : world :=
  match q with
  | [] => set_queue [] w
  | (id, v) :: q' => get_results_loop q' (results_setitem id v w)
  end.

(** [get_results]: the returned value is the reference [self._results]. *)
Definition get_results (w : world) : loc * world :=
  (_results (self w), get_results_loop (_queue (self w)) w).

(** [join] *)
Definition join (G : globals) (picks : list nat) (w : world) : world :=
  match _pool (self w) with
  | Some _ => waitall G picks w
  | None => w
  end.

(** ** Sequences of calls on one engine *)

Inductive call :=
  | Call_spawn (picks : list nat) (id : ident) (func : callable)
      (args : list value) (kwargs : list (string * value))
  | Call_get_results
  | Call_join (picks : list nat).

(** The state after a call, for a caller that goes on whatever the call
    returned or raised. *)
Definition run_call (G : globals) (c : call) (w : world) : world :=
  match c with
  | Call_spawn picks id func args kwargs =>
      (spawn G picks id func args kwargs w).2
  | Call_get_results => (get_results w).2
  | Call_join picks => join G picks w
  end.

Definition run_calls (G : globals) (cs : list call) (w : world) : world :=
  foldl (λ w c, run_call G c w) w cs.

(** The units handed to [spawn] by a sequence of calls, in call order. *)
Definition spawned (cs : list call) : list task :=
  cs ≫= λ c,
    match c with
    | Call_spawn _ id func args kwargs => [Task id func args kwargs]
    | _ => []
    end.

(** The outcome the wrapper builds for a unit's call result, when the
    handler takes it. *)
Definition outcome_of (G : globals) (r : call_result) : option outcome :=
  match r with
  | Returned v => Some (VNone, VNone, VNone, v)
  | Raised e tb =>
      if except_Exception_Timeout G e then Some (sys_exc_info e tb, VNone)
      else None
  end.

(** A unit the wrapper handles: it returns, or raises what the handler
    matches. *)
Definition handled (G : globals) (t : task) : Prop :=
  is_Some (outcome_of G (task_func t (task_args t) (task_kwargs t))).

(** An engine with nothing in it, to read off what one wrapper call
    appends to the queue. *)
Definition blank : world := World ∅ (Engine 0 None [] 1%positive).

Definition published (G : globals) (t : task) : list (ident * outcome) :=
  _queue (self (run_task G t blank)).

(** The entries of a queue assigned into a dict, oldest first. *)
Fixpoint drain (q : list (ident * outcome)) (d : gmap ident outcome)
  : gmap ident outcome :=
  match q with
  | [] => d
  | (id, v) :: q' => drain q' (<[id := v]> d)
  end.

(** What the store will hold once the queue is drained. *)
Definition view (w : world) : gmap ident outcome :=
  drain (_queue (self w)) (store w).

(** From [w] to [w'], with the units [new] handed to [spawn] on the
    way: the dict reference, the ceiling and the mode stay; other dicts
    are untouched; the units unfinished at the start and the new ones
    split into those that finished (in that order, [done]) and those
    still unfinished; what a drain would show grew by what the finished
    units published; and the queue holds nothing but what it held and
    what they published. *)
Definition progress (G : globals) (w w' : world) (new : list task) : Prop :=
  _results (self w') = _results (self w)
  ∧ concurrency (self w') = concurrency (self w)
  ∧ (is_Some (_pool (self w')) ↔ is_Some (_pool (self w)))
  ∧ (∀ l, l ≠ _results (self w) → heap w' !! l = heap w !! l)
  ∧ ∃ done, running w ++ new ≡ₚ done ++ running w'
      ∧ view w' = drain (concat (published G <$> done)) (view w)
      ∧ ∀ x, x ∈ _queue (self w') →
          x ∈ _queue (self w) ∨ x ∈ concat (published G <$> done).

(** The two variants of the tuple, for a unit whose call ended as [r]. *)
Definition variant_exclusive (r : call_result) (o : outcome) : Prop :=
  ((∃ v, r = Returned v ∧ exc_type o = VNone ∧ exc_value o = VNone
         ∧ exc_tb o = VNone ∧ result o = v)
   ∨ (∃ e tb, r = Raised e tb ∧ exc_type o = VType (exn_class e)
         ∧ exc_value o = VExc e ∧ exc_tb o = VTraceback tb
         ∧ result o = VNone))
  ∧ (exc_type o = VNone ↔ ∃ v, r = Returned v).

(** ** Units of work used in the examples *)

(** [lambda i: i * 2] *)
Definition double : callable := λ args _,
  match args with
  | [VInt i] => Returned (VInt (i * 2))
  | _ => Raised (Exn TypeError "unsupported operand") ["_spawner"; "double"]
  end.

(** [lambda: 1 / 0] *)
Definition divide_by_zero : callable := λ _ _,
  Raised (Exn ZeroDivisionError "division by zero")
    ["_spawner"; "divide_by_zero"].

(** A unit interrupted from the keyboard while it runs. *)
Definition interrupted : callable := λ _ _,
  Raised (Exn KeyboardInterrupt "") ["_spawner"; "interrupted"].

(** [lambda: sys.exit(0)] *)
Definition exits : callable := λ _ _,
  Raised (Exn SystemExit "0") ["_spawner"; "exits"].

(** ** Polling *)

Definition is_get_results (c : call) : bool :=
  match c with Call_get_results => true | _ => false end.

(** A sequence of calls with its [get_results] calls left out. *)
Definition without_get_results (cs : list call) : list call :=
  filter (λ c, is_get_results c = false) cs.

(** Two states of an engine that differ only in how far the queue has
    been drained into the store. *)
Definition same_up_to_draining (w w' : world) : Prop :=
  _pool (self w) = _pool (self w') ∧ view w = view w'.

(** Every entry of the store and of the queue is what one of the units
    [ts] publishes, and every unfinished unit is one of [ts]. *)
Definition accounted (G : globals) (ts : list task) (w : world) : Prop :=
  (∀ i o, store w !! i = Some o → (i, o) ∈ concat (published G <$> ts))
  ∧ (∀ x, x ∈ _queue (self w) → x ∈ concat (published G <$> ts))
  ∧ (∀ t, t ∈ running w → t ∈ ts).

(** * Properties *)

(** ** The drain loop *)

Section drain.
Implicit Types (q : list (ident * outcome)) (d : gmap ident outcome).

Lemma drain_app q1 q2 d : drain (q1 ++ q2) d = drain q2 (drain q1 d).
Proof.
  revert d. induction q1 as [|[i v] q1 IH]; intros d; simpl; [done|].
  apply IH.
Qed.

Lemma drain_snoc q i v d : drain (q ++ [(i, v)]) d = <[i := v]> (drain q d).
Proof. by rewrite drain_app. Qed.

Lemma drain_lookup_notin q d i : i ∉ q.*1 → drain q d !! i = d !! i.
Proof.
  revert d. induction q as [|[j v] q IH]; intros d Hi; simpl; [done|].
  rewrite fmap_cons in Hi. apply not_elem_of_cons in Hi as [Hne Hi].
  rewrite IH by done. by rewrite lookup_insert_ne.
Qed.

Lemma drain_lookup_last q1 q2 d i v :
  i ∉ q2.*1 → drain (q1 ++ (i, v) :: q2) d !! i = Some v.
Proof.
  intros Hi. rewrite drain_app. simpl.
  rewrite drain_lookup_notin by done. apply lookup_insert_eq.
Qed.

Lemma drain_lookup_NoDup q d i v :
  NoDup q.*1 → (i, v) ∈ q → drain q d !! i = Some v.
Proof.
  intros Hnd Hin. apply list_elem_of_split in Hin as (q1 & q2 & ->).
  apply drain_lookup_last.
  rewrite fmap_app, fmap_cons in Hnd. apply NoDup_app in Hnd as (_ & _ & Hnd).
  by apply NoDup_cons in Hnd as [? _].
Qed.

Lemma drain_dom q d : dom (drain q d) = dom d ∪ list_to_set q.*1.
Proof.
  revert d. induction q as [|[j v] q IH]; intros d; simpl.
  - set_solver.
  - rewrite IH, dom_insert_L. set_solver.
Qed.

Lemma drain_lookup_is_Some q d i :
  is_Some (d !! i) → is_Some (drain q d !! i).
Proof.
  rewrite <- !elem_of_dom, drain_dom. set_solver.
Qed.

Lemma drain_size q d : (size d ≤ size (drain q d))%nat.
Proof.
  rewrite <- !size_dom. apply subseteq_size. rewrite drain_dom. set_solver.
Qed.
End drain.

(** ** Attributes that the methods leave alone *)

Section frame.
Context (G : globals).

Lemma run_task_queue t w :
  _queue (self (run_task G t w)) = _queue (self w) ++ published G t.
Proof.
  unfold published, run_task, _spawner.
  destruct (task_func t _ _) as [r|e tb]; simpl; [done|].
  destruct (except_Exception_Timeout G e); simpl; [done|].
  by rewrite app_nil_r.
Qed.

Lemma run_task_heap t w : heap (run_task G t w) = heap w.
Proof.
  unfold run_task, _spawner.
  destruct (task_func t _ _) as [r|e tb]; simpl; [done|].
  by destruct (except_Exception_Timeout G e).
Qed.

Lemma run_task_results t w :
  _results (self (run_task G t w)) = _results (self w).
Proof.
  unfold run_task, _spawner.
  destruct (task_func t _ _) as [r|e tb]; simpl; [done|].
  by destruct (except_Exception_Timeout G e).
Qed.

Lemma run_task_pool t w : _pool (self (run_task G t w)) = _pool (self w).
Proof.
  unfold run_task, _spawner.
  destruct (task_func t _ _) as [r|e tb]; simpl; [done|].
  by destruct (except_Exception_Timeout G e).
Qed.

Lemma run_task_running t w : running (run_task G t w) = running w.
Proof. unfold running. by rewrite run_task_pool. Qed.

Lemma run_task_store t w : store (run_task G t w) = store w.
Proof. unfold store. by rewrite run_task_heap, run_task_results. Qed.

Lemma published_outcome t :
  published G t =
    match outcome_of G (task_func t (task_args t) (task_kwargs t)) with
    | Some o => [(task_ident t, o)]
    | None => []
    end.
Proof.
  unfold published, run_task, _spawner, outcome_of.
  destruct (task_func t _ _) as [r|e tb]; simpl; [done|].
  by destruct (except_Exception_Timeout G e).
Qed.

Lemma published_handled t :
  handled G t → ∃ o, published G t = [(task_ident t, o)]
    ∧ outcome_of G (task_func t (task_args t) (task_kwargs t)) = Some o.
Proof.
  intros [o Ho]. exists o. by rewrite published_outcome, Ho.
Qed.

Lemma set_running_running ts w :
  is_Some (_pool (self w)) → running (set_running ts w) = ts.
Proof. intros [p Hp]. unfold running, set_running. simpl. by rewrite Hp. Qed.

Lemma set_running_pool_is_Some ts w :
  is_Some (_pool (self (set_running ts w))) ↔ is_Some (_pool (self w)).
Proof.
  unfold set_running. simpl. destruct (_pool (self w)); simpl;
    split; intros [? ?]; by eauto.
Qed.

Lemma pool_switch_no_pool picks w :
  _pool (self w) = None → pool_switch G picks w = w.
Proof. intros H. destruct picks; simpl; [done|]. by rewrite H. Qed.

Lemma pool_switch_pick n picks w p t :
  _pool (self w) = Some p → pool_running p !! n = Some t →
  pool_switch G (n :: picks) w =
    pool_switch G picks
      (run_task G t (set_running (delete n (pool_running p)) w)).
Proof. intros Hp Hn. simpl. by rewrite Hp, Hn. Qed.

Lemma pool_switch_skip n picks w p :
  _pool (self w) = Some p → pool_running p !! n = None →
  pool_switch G (n :: picks) w = pool_switch G picks w.
Proof. intros Hp Hn. simpl. by rewrite Hp, Hn. Qed.

(** A switch only finishes pooled calls: the calls that were
    unfinished split into those it finished and those still
    unfinished, and the finished ones appended what they published,
    in the order they finished. *)
Lemma pool_switch_spec picks w :
  heap (pool_switch G picks w) = heap w
  ∧ _results (self (pool_switch G picks w)) = _results (self w)
  ∧ concurrency (self (pool_switch G picks w)) = concurrency (self w)
  ∧ (is_Some (_pool (self (pool_switch G picks w)))
     ↔ is_Some (_pool (self w)))
  ∧ ∃ done, running w ≡ₚ done ++ running (pool_switch G picks w)
      ∧ _queue (self (pool_switch G picks w))
        = _queue (self w) ++ concat (published G <$> done).
Proof.
  revert w. induction picks as [|n picks IH]; intros w.
  { simpl. split_and!; try done. exists []. simpl. by rewrite app_nil_r. }
  destruct (_pool (self w)) as [p|] eqn:Hp; rewrite <- ?Hp.
  2:{ rewrite pool_switch_no_pool by done.
      split_and!; try done. exists []. simpl. by rewrite app_nil_r. }
  destruct (pool_running p !! n) as [t|] eqn:Hn.
  2:{ rewrite (pool_switch_skip _ _ _ _ Hp Hn). apply IH. }
  rewrite (pool_switch_pick _ _ _ _ _ Hp Hn).
  destruct (IH (run_task G t (set_running (delete n (pool_running p)) w)))
    as (Hh & Hr & Hc & Hs & done & Hperm & Hq).
  rewrite run_task_heap in Hh. rewrite run_task_results in Hr.
  rewrite run_task_pool, set_running_pool_is_Some in Hs.
  rewrite run_task_running, set_running_running in Hperm by (by rewrite Hp).
  rewrite run_task_queue in Hq. simpl in Hh, Hr, Hq.
  split_and!; try done.
  - rewrite Hc. unfold run_task, _spawner.
    destruct (task_func t _ _) as [r|e tb]; simpl; [done|].
    by destruct (except_Exception_Timeout G e).
  - exists (t :: done). split.
    + unfold running at 1. rewrite Hp. simpl. rewrite <- Hperm.
      by apply delete_Permutation.
    + rewrite Hq. simpl. by rewrite <- app_assoc.
Qed.
End frame.

(** ** What a sequence of calls amounts to *)

Section progress.
Context (G : globals).

Lemma progress_refl w : progress G w w [].
Proof.
  unfold progress. split_and!; try done.
  exists []. simpl. rewrite app_nil_r. split_and!; auto.
Qed.

Lemma progress_trans w1 w2 w3 new1 new2 :
  progress G w1 w2 new1 → progress G w2 w3 new2 →
  progress G w1 w3 (new1 ++ new2).
Proof.
  intros (Hr1 & Hc1 & Hp1 & Hh1 & d1 & Hperm1 & Hv1 & Hq1)
         (Hr2 & Hc2 & Hp2 & Hh2 & d2 & Hperm2 & Hv2 & Hq2).
  unfold progress. split_and!.
  - congruence.
  - congruence.
  - by rewrite Hp2.
  - intros l Hl. rewrite Hh2 by congruence. by apply Hh1.
  - exists (d1 ++ d2). rewrite fmap_app, concat_app. split_and!.
    + rewrite (assoc_L (++)), Hperm1, <- !(assoc_L (++)), Hperm2. done.
    + rewrite Hv2, Hv1. by rewrite drain_app.
    + intros x Hx. rewrite elem_of_app.
      destruct (Hq2 x Hx) as [Hx2|?]; [|by auto].
      destruct (Hq1 x Hx2); auto.
Qed.

Lemma pool_switch_progress picks w : progress G w (pool_switch G picks w) [].
Proof.
  destruct (pool_switch_spec G picks w)
    as (Hh & Hr & Hc & Hs & done & Hperm & Hq).
  unfold progress. split_and!; try done.
  - intros l _. by rewrite Hh.
  - exists done. rewrite app_nil_r. split_and!; [done| |].
    + unfold view, store. rewrite Hq, Hh, Hr. by rewrite drain_app.
    + intros x. rewrite Hq. by rewrite elem_of_app.
Qed.

Lemma spawn_n_progress t w :
  is_Some (_pool (self w)) → progress G w (spawn_n t w) [t].
Proof.
  intros Hp. unfold progress, spawn_n. split_and!; try done.
  - apply set_running_pool_is_Some.
  - exists []. rewrite set_running_running by done. split_and!; auto.
Qed.

Lemma run_task_progress t w :
  _pool (self w) = None → progress G w (run_task G t w) [t].
Proof.
  intros Hp. unfold progress.
  rewrite run_task_results, run_task_pool, run_task_heap.
  split_and!; try done.
  - unfold run_task, _spawner.
    destruct (task_func t _ _) as [r|e tb]; simpl; [done|].
    by destruct (except_Exception_Timeout G e).
  - exists [t]. rewrite run_task_running. unfold running. rewrite Hp.
    simpl. rewrite app_nil_r. split_and!; [done| |].
    + unfold view. rewrite run_task_queue, run_task_store.
      by rewrite drain_app.
    + intros x. rewrite run_task_queue. by rewrite elem_of_app.
Qed.

Lemma spawn_progress picks id func args kwargs w :
  progress G w (spawn G picks id func args kwargs w).2
    [Task id func args kwargs].
Proof.
  unfold spawn. destruct (_pool (self w)) as [p|] eqn:Hp.
  - simpl. change [Task id func args kwargs]
      with ([Task id func args kwargs] ++ []).
    eapply progress_trans; [|apply pool_switch_progress].
    apply spawn_n_progress. by rewrite Hp.
  - by apply (run_task_progress (Task id func args kwargs)).
Qed.

Lemma results_setitem_store id v w :
  store (results_setitem id v w) = <[id := v]> (store w).
Proof.
  unfold results_setitem, store at 1, deref. simpl.
  by rewrite lookup_insert_eq.
Qed.

Lemma set_queue_id q w : _queue (self w) = q → set_queue q w = w.
Proof. destruct w as [h [c p q' r]]. simpl. by intros ->. Qed.

Lemma get_results_loop_self q w :
  self (get_results_loop q w)
    = Engine (concurrency (self w)) (_pool (self w)) [] (_results (self w)).
Proof.
  revert w. induction q as [|[i v] q IH]; intros w; simpl; [done|].
  by rewrite IH.
Qed.

Lemma get_results_loop_store q w :
  store (get_results_loop q w) = drain q (store w).
Proof.
  revert w. induction q as [|[i v] q IH]; intros w; simpl; [done|].
  by rewrite IH, results_setitem_store.
Qed.

Lemma get_results_loop_heap q w l :
  l ≠ _results (self w) → heap (get_results_loop q w) !! l = heap w !! l.
Proof.
  revert w. induction q as [|[i v] q IH]; intros w Hl; simpl; [done|].
  rewrite IH by done. simpl. by rewrite lookup_insert_ne.
Qed.

Lemma get_results_store w :
  store (get_results w).2 = view w.
Proof. apply get_results_loop_store. Qed.

Lemma get_results_queue w : _queue (self (get_results w).2) = [].
Proof. unfold get_results. simpl. by rewrite get_results_loop_self. Qed.

Lemma get_results_results w :
  _results (self (get_results w).2) = _results (self w).
Proof. unfold get_results. simpl. by rewrite get_results_loop_self. Qed.

Lemma get_results_running w : running (get_results w).2 = running w.
Proof. unfold running, get_results. simpl. by rewrite get_results_loop_self. Qed.

Lemma get_results_progress w : progress G w (get_results w).2 [].
Proof.
  unfold progress, get_results. simpl. rewrite get_results_loop_self. simpl.
  split_and!; try done.
  - intros l Hl. by apply get_results_loop_heap.
  - exists []. split_and!.
    + rewrite app_nil_r. unfold running. by rewrite get_results_loop_self.
    + unfold view at 1. rewrite get_results_loop_self. simpl.
      apply get_results_loop_store.
    + intros x Hx. by apply elem_of_nil in Hx.
Qed.

Lemma waitall_progress picks w : progress G w (waitall G picks w) [].
Proof.
  unfold waitall. change (@nil task) with (@nil task ++ []).
  eapply progress_trans; apply pool_switch_progress.
Qed.

Lemma join_progress picks w : progress G w (join G picks w) [].
Proof.
  unfold join. destruct (_pool (self w)); [apply waitall_progress|].
  apply progress_refl.
Qed.

Lemma run_call_progress c w :
  progress G w (run_call G c w) (spawned [c]).
Proof.
  destruct c; simpl.
  - apply spawn_progress.
  - apply get_results_progress.
  - apply join_progress.
Qed.

Lemma spawned_app cs1 cs2 : spawned (cs1 ++ cs2) = spawned cs1 ++ spawned cs2.
Proof. unfold spawned. by rewrite bind_app. Qed.

Lemma run_calls_app cs1 cs2 w :
  run_calls G (cs1 ++ cs2) w = run_calls G cs2 (run_calls G cs1 w).
Proof. unfold run_calls. by rewrite foldl_app. Qed.

Lemma run_calls_progress cs w :
  progress G w (run_calls G cs w) (spawned cs).
Proof.
  revert w. induction cs as [|c cs IH]; intros w.
  - apply progress_refl.
  - change (c :: cs) with ([c] ++ cs). rewrite spawned_app.
    eapply progress_trans; [apply run_call_progress|apply IH].
Qed.

(** After [waitall] no pooled call is left unfinished. *)
Lemma pool_switch_oldest_first n w :
  length (running w) = n →
  running (pool_switch G (replicate n 0%nat) w) = [].
Proof.
  revert w. induction n as [|n IH]; intros w Hn; simpl.
  { by apply nil_length_inv. }
  unfold running in Hn. destruct (_pool (self w)) as [p|] eqn:Hp; [|done].
  destruct (pool_running p) as [|t ts] eqn:Hts; [done|]. simpl.
  apply IH. rewrite run_task_running, set_running_running by (by rewrite Hp).
  simpl in Hn. lia.
Qed.

Lemma waitall_running picks w : running (waitall G picks w) = [].
Proof. unfold waitall. by apply pool_switch_oldest_first. Qed.

Lemma join_running picks w : running (join G picks w) = [].
Proof.
  unfold join. destruct (_pool (self w)) eqn:Hp; [apply waitall_running|].
  unfold running. by rewrite Hp.
Qed.
End progress.

(** ** What finished units leave in the store *)

Section completed.
Context (G : globals).

Lemma published_ident t x : x ∈ published G t → x.1 = task_ident t.
Proof.
  rewrite published_outcome. destruct (outcome_of G _).
  - intros ->%list_elem_of_singleton. done.
  - by intros ?%elem_of_nil.
Qed.

Lemma concat_published_ident ts x :
  x ∈ concat (published G <$> ts) → x.1 ∈ task_ident <$> ts.
Proof.
  induction ts as [|t ts IH]; simpl.
  - by intros ?%elem_of_nil.
  - rewrite elem_of_app. intros [Hx|Hx].
    + rewrite (published_ident _ _ Hx). by left.
    + right. by apply IH.
Qed.

Lemma concat_published_handled ts :
  Forall (handled G) ts →
  (concat (published G <$> ts)).*1 = task_ident <$> ts.
Proof.
  induction 1 as [|t ts Ht _ IH]; simpl; [done|].
  destruct (published_handled G t Ht) as (o & -> & _). simpl.
  f_equal. exact IH.
Qed.

Lemma elem_of_concat_published ts t o :
  t ∈ ts →
  outcome_of G (task_func t (task_args t) (task_kwargs t)) = Some o →
  (task_ident t, o) ∈ concat (published G <$> ts).
Proof.
  intros Ht Ho. induction Ht as [t ts|t t' ts _ IH]; simpl;
    rewrite elem_of_app.
  - left. rewrite published_outcome, Ho. by left.
  - right. by apply IH.
Qed.

(** Among finished units, one whose identifier no other unit has
    decides what a drain stores under that identifier. *)
Lemma completed_unit_lookup done rest t o d :
  done ≡ₚ rest ++ [t] →
  task_ident t ∉ task_ident <$> rest →
  outcome_of G (task_func t (task_args t) (task_kwargs t)) = Some o →
  drain (concat (published G <$> done)) d !! task_ident t = Some o.
Proof.
  intros Hperm Hfresh Ho.
  assert (t ∈ done) as Hin by (rewrite Hperm; set_solver).
  apply list_elem_of_split in Hin as (d1 & d2 & ->).
  rewrite fmap_app, concat_app, fmap_cons. simpl.
  rewrite published_outcome, Ho. simpl.
  apply drain_lookup_last. intros Hc. apply Hfresh.
  assert (rest ≡ₚ d1 ++ d2) as ->.
  { apply (Permutation_cons_app_inv d1 d2 (a := t)).
    rewrite Hperm. apply Permutation_cons_append. }
  rewrite fmap_app, elem_of_app. right.
  apply list_elem_of_fmap in Hc as (x & -> & Hx).
  by apply concat_published_ident.
Qed.

(** [spawn], then [join], then [get_results]: the store holds the
    unit's outcome under its identifier, whatever the scheduler
    chose, when no unfinished unit shares the identifier. *)
Lemma spawn_join_get_results picks pj id func args kwargs o w :
  outcome_of G (func args kwargs) = Some o →
  id ∉ task_ident <$> running w →
  store (get_results (join G pj (spawn G picks id func args kwargs w).2)).2
    !! id = Some o.
Proof.
  intros Ho Hfresh. rewrite get_results_store.
  set (t := Task id func args kwargs).
  assert (progress G w (join G pj (spawn G picks id func args kwargs w).2)
            ([t] ++ [])) as (_ & _ & _ & _ & done & Hperm & -> & _).
  { eapply progress_trans; [apply spawn_progress|apply join_progress]. }
  rewrite join_running, !app_nil_r in Hperm.
  by apply (completed_unit_lookup done (running w) t).
Qed.

Lemma init_view h c : view (__init__ G h c) = ∅.
Proof.
  unfold view, store, deref, __init__. simpl. by rewrite lookup_insert_eq.
Qed.

Lemma init_running h c : running (__init__ G h c) = [].
Proof.
  unfold running, __init__. simpl.
  by destruct (negb (c =? 0) && GreenPool G).
Qed.

Lemma init_no_pool h c :
  c = 0 ∨ GreenPool G = false → _pool (self (__init__ G h c)) = None.
Proof.
  unfold __init__. simpl. intros [-> | ->]; [done|].
  by rewrite andb_false_r.
Qed.

Lemma run_calls_no_pool cs w :
  _pool (self w) = None → _pool (self (run_calls G cs w)) = None.
Proof.
  intros Hp. destruct (run_calls_progress G cs w) as (_ & _ & Hs & _).
  rewrite Hp in Hs. destruct (_pool (self (run_calls G cs w))); [|done].
  destruct Hs as [[? ?] _]; by eauto.
Qed.
End completed.

(** ** The wrapper and the outcome of one unit *)

(** C1. A unit that returns [v]: the wrapper publishes
    [(None, None, None, v)] under the unit's identifier, a drain after
    the wrapper stores exactly that, and so does [spawn], [join],
    [get_results] under any scheduling when no unfinished unit shares
    the identifier. *)
Theorem returned_value_is_stored_as_success
    G picks pj id func args kwargs v w :
  func args kwargs = Returned v →
  _spawner G id func args kwargs w
    = (None, Queue_put (id, (VNone, VNone, VNone, v)) w)
  ∧ store (get_results (_spawner G id func args kwargs w).2).2 !! id
    = Some (VNone, VNone, VNone, v)
  ∧ (id ∉ task_ident <$> running w →
     store (get_results (join G pj (spawn G picks id func args kwargs w).2)).2
       !! id = Some (VNone, VNone, VNone, v)).
Proof.
  intros Hv. split_and!.
  - unfold _spawner. by rewrite Hv.
  - rewrite get_results_store. unfold _spawner. rewrite Hv.
    unfold view, Queue_put. simpl.
    rewrite drain_snoc. apply lookup_insert_eq.
  - intros Hfresh. apply spawn_join_get_results; [|done]. by rewrite Hv.
Qed.

Lemma returned_value_is_stored_as_success_witness :
  double [VInt 3] [] = Returned (VInt 6)
  ∧ store (get_results (join (Globals true) [] (spawn (Globals true) [0%nat]
        (IdInt 3) double [VInt 3] [] (__init__ (Globals true) ∅ 10)).2)).2
      !! IdInt 3 = Some (VNone, VNone, VNone, VInt 6).
Proof.
  split; [reflexivity|].
  apply (returned_value_is_stored_as_success (Globals true) [0%nat] []
           (IdInt 3) double [VInt 3] [] (VInt 6)
           (__init__ (Globals true) ∅ 10)); [reflexivity|].
  vm_compute. apply not_elem_of_nil.
Defined.

(** C2, as stated for every error, fails.  The handler does not take
    a [KeyboardInterrupt]: with no pool,
    [spawn] lets it through to its caller and nothing is published. *)
Lemma interrupt_leaves_spawn :
  spawn (Globals true) [] (IdStr "a") interrupted [] []
      (__init__ (Globals true) ∅ 0)
    = (Some (Exn KeyboardInterrupt ""), __init__ (Globals true) ∅ 0)
  ∧ _queue (self (__init__ (Globals true) ∅ 0)) = []
  ∧ store (get_results (spawn (Globals true) [] (IdStr "a") interrupted [] []
                          (__init__ (Globals true) ∅ 0)).2).2 !! IdStr "a"
    = None.
Proof. split_and!; reflexivity. Qed.

(** C2, as amended. A unit that raises [e], an instance of [Exception]
    or of [Timeout]: the wrapper returns normally and publishes
    [(type(e), e, traceback, None)]; [spawn] raises nothing; after
    [join] and [get_results] that tuple is the unit's entry. *)
Theorem raised_exception_is_stored_as_failure
    G picks pj id func args kwargs e tb w :
  func args kwargs = Raised e tb →
  issubclass (exn_class e) Exception = true
    ∨ issubclass (exn_class e) (Timeout G) = true →
  _spawner G id func args kwargs w
    = (None,
       Queue_put
         (id, (VType (exn_class e), VExc e, VTraceback tb, VNone)) w)
  ∧ (spawn G picks id func args kwargs w).1 = None
  ∧ (id ∉ task_ident <$> running w →
     store (get_results (join G pj (spawn G picks id func args kwargs w).2)).2
       !! id = Some (VType (exn_class e), VExc e, VTraceback tb, VNone)).
Proof.
  intros He Hsub.
  assert (except_Exception_Timeout G e = true) as Hcaught.
  { unfold except_Exception_Timeout. apply orb_true_iff. tauto. }
  assert (_spawner G id func args kwargs w
    = (None,
       Queue_put
         (id, (VType (exn_class e), VExc e, VTraceback tb, VNone)) w)) as Hw.
  { unfold _spawner. by rewrite He, Hcaught. }
  split_and!.
  - done.
  - unfold spawn. destruct (_pool (self w)); [done|]. by rewrite Hw.
  - intros Hfresh. apply spawn_join_get_results; [|done].
    rewrite He. simpl. by rewrite Hcaught.
Qed.

Lemma raised_exception_is_stored_as_failure_witness :
  divide_by_zero [] [] = Raised (Exn ZeroDivisionError "division by zero")
                           ["_spawner"; "divide_by_zero"]
  ∧ issubclass ZeroDivisionError Exception = true
  ∧ store (get_results (join (Globals true) [] (spawn (Globals true) []
        (IdStr "a") divide_by_zero [] [] (__init__ (Globals true) ∅ 2)).2)).2
      !! IdStr "a"
    = Some (VType ZeroDivisionError,
            VExc (Exn ZeroDivisionError "division by zero"),
            VTraceback ["_spawner"; "divide_by_zero"], VNone).
Proof.
  split; [reflexivity|]. split; [reflexivity|].
  apply (raised_exception_is_stored_as_failure (Globals true) [] []
           (IdStr "a") divide_by_zero [] []
           (Exn ZeroDivisionError "division by zero")
           ["_spawner"; "divide_by_zero"]
           (__init__ (Globals true) ∅ 2)); [reflexivity|by left|].
  vm_compute. apply not_elem_of_nil.
Defined.

(** ** Counting the entries *)

Section entries.
Context (G : globals).

Lemma spawn_store picks id func args kwargs w :
  store (spawn G picks id func args kwargs w).2 = store w.
Proof.
  unfold spawn. destruct (_pool (self w)) as [p|] eqn:Hp.
  - simpl. unfold store.
    destruct (pool_switch_spec G picks
                (spawn_n (Task id func args kwargs) w))
      as (-> & -> & _). done.
  - apply (run_task_store G (Task id func args kwargs)).
Qed.

Lemma waitall_spec picks w :
  heap (waitall G picks w) = heap w
  ∧ _results (self (waitall G picks w)) = _results (self w)
  ∧ ∃ done, running w ≡ₚ done
      ∧ _queue (self (waitall G picks w))
        = _queue (self w) ++ concat (published G <$> done).
Proof.
  pose proof (waitall_running G picks w) as Hnil. unfold waitall in *.
  set (w1 := pool_switch G picks w) in *.
  set (n := length (running w1)) in *.
  destruct (pool_switch_spec G picks w)
    as (Hh1 & Hr1 & _ & _ & d1 & Hp1 & Hq1).
  destruct (pool_switch_spec G (replicate n 0%nat) w1)
    as (Hh2 & Hr2 & _ & _ & d2 & Hp2 & Hq2).
  fold w1 in Hh1, Hr1, Hp1, Hq1. rewrite Hnil, app_nil_r in Hp2.
  split_and!; [congruence..|].
  exists (d1 ++ d2). split.
  - by rewrite Hp1, Hp2.
  - rewrite Hq2, Hq1, fmap_app, concat_app. by rewrite (assoc_L (++)).
Qed.

Lemma join_store picks w : store (join G picks w) = store w.
Proof.
  unfold join. destruct (_pool (self w)); [|done].
  unfold store. by destruct (waitall_spec picks w) as (-> & -> & _).
Qed.

Lemma run_call_store c w :
  store (run_call G c w)
    = match c with Call_get_results => view w | _ => store w end.
Proof.
  destruct c; simpl.
  - apply spawn_store.
  - apply get_results_store.
  - apply join_store.
Qed.

Lemma run_call_dom c w : dom (store w) ⊆ dom (store (run_call G c w)).
Proof.
  rewrite run_call_store. destruct c; try done.
  unfold view. rewrite drain_dom. set_solver.
Qed.

Lemma run_calls_dom cs w : dom (store w) ⊆ dom (store (run_calls G cs w)).
Proof.
  revert w. induction cs as [|c cs IH]; intros w; [done|].
  change (run_calls G (c :: cs) w) with (run_calls G cs (run_call G c w)).
  etrans; [apply run_call_dom|apply IH].
Qed.

(** An identifier that no queued entry and no unfinished or newly
    spawned unit carries keeps what the store has for it. *)
Lemma run_call_untouched c w i :
  i ∉ (_queue (self w)).*1 →
  i ∉ task_ident <$> (running w ++ spawned [c]) →
  store (run_call G c w) !! i = store w !! i
  ∧ (i ∉ (_queue (self (run_call G c w))).*1)
  ∧ i ∉ task_ident <$> running (run_call G c w).
Proof.
  intros Hq Ht.
  destruct (run_call_progress G c w)
    as (_ & _ & _ & _ & done & Hperm & _ & Hq').
  rewrite Hperm in Ht. rewrite fmap_app, elem_of_app in Ht.
  split_and!.
  - rewrite run_call_store. destruct c; try done.
    unfold view. by rewrite drain_lookup_notin.
  - intros Hi. apply list_elem_of_fmap in Hi as (x & -> & Hx).
    destruct (Hq' x Hx) as [Hx'|Hx'].
    + apply Hq. apply list_elem_of_fmap. eauto.
    + apply Ht. left. by apply (concat_published_ident G).
  - tauto.
Qed.

Lemma run_calls_untouched cs w i :
  i ∉ (_queue (self w)).*1 →
  i ∉ task_ident <$> (running w ++ spawned cs) →
  store (run_calls G cs w) !! i = store w !! i.
Proof.
  revert w. induction cs as [|c cs IH]; intros w Hq Ht; [done|].
  change (run_calls G (c :: cs) w) with (run_calls G cs (run_call G c w)).
  change (c :: cs) with ([c] ++ cs) in Ht.
  rewrite spawned_app, !fmap_app, !elem_of_app in Ht.
  destruct (run_call_untouched c w i) as (Hs & Hq1 & Ht1); [done|..].
  { rewrite fmap_app, elem_of_app. tauto. }
  rewrite IH, Hs; [done..|]. rewrite fmap_app, elem_of_app. tauto.
Qed.
End entries.

(** C3, as stated for every unit, fails.  A unit that exits the
    interpreter leaves no entry: [SystemExit] is
    neither an [Exception] nor a [Timeout], so the wrapper's [put] is
    never reached, with eventlet's pool and without it. *)
Lemma unit_that_exits_has_no_entry :
  store (run_calls (Globals true)
           [Call_spawn [0%nat] (IdInt 1) exits [] [];
            Call_join []; Call_get_results]
           (__init__ (Globals true) ∅ 1)) = ∅
  ∧ store (run_calls (Globals false)
             [Call_spawn [] (IdInt 1) exits [] [];
              Call_join []; Call_get_results]
             (__init__ (Globals false) ∅ 1)) = ∅.
Proof. split; reflexivity. Qed.

(** C3, as amended. Units with pairwise distinct identifiers, each of
    which returns or raises what the handler takes, spawned on a new
    engine (any ceiling, any interleaved [get_results] and [join], any
    scheduling): after [join] and [get_results] the store has exactly
    one entry per unit, under the unit's identifier, holding that
    unit's outcome. *)
Theorem one_entry_per_handled_unit G h c cs pj :
  NoDup (task_ident <$> spawned cs) →
  Forall (handled G) (spawned cs) →
  let w := run_calls G (cs ++ [Call_join pj; Call_get_results])
             (__init__ G h c) in
  dom (store w) = list_to_set (task_ident <$> spawned cs)
  ∧ size (store w) = length (spawned cs)
  ∧ ∀ t, t ∈ spawned cs →
      store w !! task_ident t
        = outcome_of G (task_func t (task_args t) (task_kwargs t)).
Proof.
  intros Hnd Hall w. subst w. rewrite run_calls_app.
  set (w1 := run_calls G cs (__init__ G h c)).
  change (run_calls G [Call_join pj; Call_get_results] w1)
    with (get_results (join G pj w1)).2.
  rewrite get_results_store.
  assert (progress G (__init__ G h c) (join G pj w1) (spawned cs ++ []))
    as (_ & _ & _ & _ & done & Hperm & -> & _).
  { eapply progress_trans; [apply run_calls_progress|apply join_progress]. }
  rewrite init_running, join_running, !app_nil_r in Hperm.
  simpl in Hperm. rewrite init_view.
  assert (Forall (handled G) done) as Hall' by (by rewrite <- Hperm).
  assert (dom (drain (concat (published G <$> done)) ∅)
          = list_to_set (task_ident <$> spawned cs)) as Hdom.
  { rewrite drain_dom, dom_empty_L, (left_id_L ∅ (∪)).
    rewrite concat_published_handled by done.
    apply set_eq. intros i. rewrite !elem_of_list_to_set. by rewrite Hperm. }
  split_and!.
  - done.
  - rewrite <- size_dom, Hdom, size_list_to_set by done.
    by rewrite length_fmap.
  - intros t Ht.
    assert (handled G t) as [o Ho].
    { by apply (proj1 (Forall_forall _ _) Hall). }
    rewrite Ho. apply drain_lookup_NoDup.
    + rewrite concat_published_handled by done. by rewrite <- Hperm.
    + apply elem_of_concat_published; [by rewrite <- Hperm|done].
Qed.

Lemma one_entry_per_handled_unit_witness :
  NoDup (task_ident <$> spawned
           [Call_spawn [] (IdInt 1) double [VInt 1] [];
            Call_spawn [1%nat] (IdInt 2) double [VInt 2] [];
            Call_spawn [] (IdStr "a") divide_by_zero [] []])
  ∧ store (run_calls (Globals true)
             ([Call_spawn [] (IdInt 1) double [VInt 1] [];
               Call_spawn [1%nat] (IdInt 2) double [VInt 2] [];
               Call_spawn [] (IdStr "a") divide_by_zero [] []]
              ++ [Call_join [1%nat]; Call_get_results])
             (__init__ (Globals true) ∅ 2)) !! IdInt 2
    = Some (VNone, VNone, VNone, VInt 4).
Proof.
  assert (NoDup (task_ident <$> spawned
           [Call_spawn [] (IdInt 1) double [VInt 1] [];
            Call_spawn [1%nat] (IdInt 2) double [VInt 2] [];
            Call_spawn [] (IdStr "a") divide_by_zero [] []])) as Hnd.
  { simpl. repeat constructor; set_solver. }
  split; [exact Hnd|].
  refine (proj2 (proj2 (one_entry_per_handled_unit (Globals true) ∅ 2
           [Call_spawn [] (IdInt 1) double [VInt 1] [];
            Call_spawn [1%nat] (IdInt 2) double [VInt 2] [];
            Call_spawn [] (IdStr "a") divide_by_zero [] []]
           [1%nat] Hnd _)) (Task (IdInt 2) double [VInt 2] []) _).
  - simpl. repeat constructor; by eexists.
  - simpl. set_solver.
Defined.

(** ** Running without a pool *)

(** C4. An engine built with [concurrency = 0], or without eventlet,
    has no pool; whatever was called on it before, a [spawn] that
    returns has run the unit and put its outcome on the queue, so the
    drain that follows stores it under the unit's identifier. *)
Theorem synchronous_spawn_outcome_present
    G h c cs picks X func args kwargs w' :
  c = 0 ∨ GreenPool G = false →
  spawn G picks X func args kwargs (run_calls G cs (__init__ G h c))
    = (None, w') →
  _pool (self (run_calls G cs (__init__ G h c))) = None
  ∧ ∃ o, outcome_of G (func args kwargs) = Some o
      ∧ _queue (self w')
        = _queue (self (run_calls G cs (__init__ G h c))) ++ [(X, o)]
      ∧ store (get_results w').2 !! X = Some o.
Proof.
  intros Hmode Hret.
  assert (_pool (self (run_calls G cs (__init__ G h c))) = None) as Hp.
  { apply run_calls_no_pool. by apply init_no_pool. }
  split; [done|]. revert Hret. unfold spawn, _spawner. rewrite Hp.
  assert (∀ o w, store (get_results (Queue_put (X, o) w)).2 !! X = Some o)
    as Hdrain.
  { intros o w. rewrite get_results_store. unfold view, Queue_put. simpl.
    rewrite drain_snoc. apply lookup_insert_eq. }
  destruct (func args kwargs) as [v|e tb]; simpl.
  - intros [= <-]. eexists. split_and!; [done..|]. apply Hdrain.
  - destruct (except_Exception_Timeout G e); [|done].
    intros [= <-]. eexists. split_and!; [done..|]. apply Hdrain.
Qed.

Lemma synchronous_spawn_outcome_present_witness :
  (0 = 0 ∨ GreenPool (Globals true) = false)
  ∧ store (get_results (spawn (Globals true) [] (IdStr "x") double [VInt 4] []
        (run_calls (Globals true) [] (__init__ (Globals true) ∅ 0))).2).2
      !! IdStr "x" = Some (VNone, VNone, VNone, VInt 8).
Proof.
  split; [by left|].
  destruct (synchronous_spawn_outcome_present (Globals true) ∅ 0 []
              [] (IdStr "x") double [VInt 4] []
              (spawn (Globals true) [] (IdStr "x") double [VInt 4] []
                 (run_calls (Globals true) [] (__init__ (Globals true) ∅ 0))).2
              (or_introl eq_refl) eq_refl)
    as (_ & o & Ho & _ & Hs).
  injection Ho as <-. exact Hs.
Defined.

(** ** Draining *)

(** C5, as stated for any two calls with no [spawn] in between,
    fails.  On an engine with a pool, a unit that has not finished when
    [get_results] is called first finishes during the [join] that
    follows, and the second [get_results] stores its entry: the
    mapping is empty at the first return and has one entry at the
    second. *)
Lemma unfinished_unit_shows_up_in_the_second_drain :
  store (get_results
           (run_calls (Globals true)
              [Call_spawn [] (IdInt 1) double [VInt 1] []]
              (__init__ (Globals true) ∅ 2))).2 = ∅
  ∧ store (get_results
             (run_calls (Globals true) [Call_join []]
                (get_results
                   (run_calls (Globals true)
                      [Call_spawn [] (IdInt 1) double [VInt 1] []]
                      (__init__ (Globals true) ∅ 2))).2)).2
    = {[ IdInt 1 := (VNone, VNone, VNone, VInt 2) ]}.
Proof. split; vm_compute; reflexivity. Qed.

(** C5, as amended. A second [get_results] right after the first
    returns the same reference, finds the queue empty, and leaves the
    state as the first call left it: the mapping read after either
    call is the same.  Whatever is called in between, the second call
    returns the same reference as the first; and when nothing is
    spawned in between and no unit was unfinished at the first call,
    the dict holds the same entries at both returns. *)
Theorem get_results_twice G cs w :
  (get_results (get_results w).2).1 = (get_results w).1
  ∧ _queue (self (get_results w).2) = []
  ∧ (get_results (get_results w).2).2 = (get_results w).2
  ∧ (get_results (run_calls G cs (get_results w).2)).1 = (get_results w).1
  ∧ (spawned cs = [] → running w = [] →
     store (get_results (run_calls G cs (get_results w).2)).2
       = store (get_results w).2).
Proof.
  assert ((get_results (get_results w).2).2 = (get_results w).2) as Heq.
  { change (get_results (get_results w).2).2
      with (get_results_loop (_queue (self (get_results w).2))
              (get_results w).2).
    rewrite get_results_queue. apply set_queue_id, get_results_queue. }
  split_and!.
  - unfold get_results. simpl. by rewrite get_results_loop_self.
  - apply get_results_queue.
  - exact Heq.
  - destruct (run_calls_progress G cs (get_results w).2) as (Hr & _).
    unfold get_results in *. simpl in *. rewrite Hr.
    by rewrite get_results_loop_self.
  - intros Hcs Hrun. rewrite get_results_store.
    destruct (run_calls_progress G cs (get_results w).2)
      as (_ & _ & _ & _ & done & Hperm & -> & _).
    rewrite Hcs, app_nil_r in Hperm.
    rewrite get_results_running, Hrun in Hperm.
    apply Permutation_nil, app_eq_nil in Hperm as [-> _].
    unfold view. by rewrite get_results_queue.
Qed.

Lemma get_results_twice_witness :
  store (get_results
           (run_calls (Globals true) [Call_join [0%nat]; Call_get_results]
              (get_results
                 (run_calls (Globals true)
                    [Call_spawn [] (IdInt 1) double [VInt 1] [];
                     Call_join []]
                    (__init__ (Globals true) ∅ 4))).2)).2
  = store (get_results
             (run_calls (Globals true)
                [Call_spawn [] (IdInt 1) double [VInt 1] []; Call_join []]
                (__init__ (Globals true) ∅ 4))).2.
Proof.
  apply (get_results_twice (Globals true)
           [Call_join [0%nat]; Call_get_results]
           (run_calls (Globals true)
              [Call_spawn [] (IdInt 1) double [VInt 1] []; Call_join []]
              (__init__ (Globals true) ∅ 4))); reflexivity.
Defined.

(** C6. Across any sequence of [spawn], [get_results] and [join] calls,
    every identifier the store has an entry for keeps an entry and the
    number of entries does not go down; [spawn] and [join] do not touch
    the store at all; and an entry whose identifier is carried by no
    queued outcome and no unfinished or later unit is kept as it is. *)
Theorem store_is_monotone G cs w :
  dom (store w) ⊆ dom (store (run_calls G cs w))
  ∧ (size (store w) ≤ size (store (run_calls G cs w)))%nat
  ∧ (∀ picks id func args kwargs,
       store (spawn G picks id func args kwargs w).2 = store w)
  ∧ (∀ picks, store (join G picks w) = store w)
  ∧ (∀ i, i ∉ (_queue (self w)).*1 →
          i ∉ task_ident <$> (running w ++ spawned cs) →
          store (run_calls G cs w) !! i = store w !! i).
Proof.
  split_and!.
  - apply run_calls_dom.
  - rewrite <- !size_dom. apply subseteq_size, run_calls_dom.
  - intros. apply spawn_store.
  - intros. apply join_store.
  - intros. by apply run_calls_untouched.
Qed.

Lemma store_is_monotone_witness :
  store (run_calls (Globals true)
           [Call_spawn [0%nat] (IdInt 2) double [VInt 2] [];
            Call_join []; Call_get_results]
           (get_results
              (run_calls (Globals true)
                 [Call_spawn [0%nat] (IdInt 1) double [VInt 1] []]
                 (__init__ (Globals true) ∅ 4))).2) !! IdInt 1
  = Some (VNone, VNone, VNone, VInt 2).
Proof.
  rewrite (proj2 (proj2 (proj2 (proj2 (store_is_monotone (Globals true)
           [Call_spawn [0%nat] (IdInt 2) double [VInt 2] [];
            Call_join []; Call_get_results]
           (get_results
              (run_calls (Globals true)
                 [Call_spawn [0%nat] (IdInt 1) double [VInt 1] []]
                 (__init__ (Globals true) ∅ 4))).2)))) (IdInt 1)).
  - reflexivity.
  - apply not_elem_of_nil.
  - vm_compute. set_solver.
Defined.

(** C7. Whatever the store and the queue held for an identifier before,
    after a drain the store holds the outcome of the last queued entry
    with that identifier: of two entries with one identifier, drained
    together or one drain after the other, the later one stays. *)
Theorem last_drained_entry_wins w q1 q2 i o :
  _queue (self w) = q1 ++ (i, o) :: q2 →
  i ∉ q2.*1 →
  store (get_results w).2 !! i = Some o.
Proof.
  intros Hq Hi. rewrite get_results_store. unfold view. rewrite Hq.
  by apply drain_lookup_last.
Qed.

Lemma last_drained_entry_wins_witness :
  store (get_results
           (run_calls (Globals false)
              [Call_spawn [] (IdStr "a") double [VInt 1] [];
               Call_get_results;
               Call_spawn [] (IdStr "a") divide_by_zero [] [];
               Call_spawn [] (IdStr "a") double [VInt 5] []]
              (__init__ (Globals false) ∅ 10))).2 !! IdStr "a"
  = Some (VNone, VNone, VNone, VInt 10).
Proof.
  apply (last_drained_entry_wins _
           [(IdStr "a",
             (VType ZeroDivisionError,
              VExc (Exn ZeroDivisionError "division by zero"),
              VTraceback ["_spawner"; "divide_by_zero"], VNone))] []).
  - reflexivity.
  - apply not_elem_of_nil.
Defined.

(** With a pool, which of two units sharing an identifier is stored
    depends on which the scheduler lets finish last. *)
Example duplicate_identifier_first_spawned_finishes_last :
  store (run_calls (Globals true)
           [Call_spawn [] (IdStr "a") double [VInt 1] [];
            Call_spawn [1%nat] (IdStr "a") double [VInt 5] [];
            Call_join []; Call_get_results]
           (__init__ (Globals true) ∅ 2)) !! IdStr "a"
  = Some (VNone, VNone, VNone, VInt 2).
Proof. reflexivity. Qed.

Example duplicate_identifier_second_spawned_finishes_last :
  store (run_calls (Globals true)
           [Call_spawn [] (IdStr "a") double [VInt 1] [];
            Call_spawn [0%nat] (IdStr "a") double [VInt 5] [];
            Call_join []; Call_get_results]
           (__init__ (Globals true) ∅ 2)) !! IdStr "a"
  = Some (VNone, VNone, VNone, VInt 10).
Proof. reflexivity. Qed.

(** [Concurrency(3)], identifiers 1 to 5 each doubling its number,
    [join], [get_results]. *)
Example five_units_doubled :
  store (run_calls (Globals true)
           [Call_spawn [0%nat] (IdInt 1) double [VInt 1] [];
            Call_spawn [] (IdInt 2) double [VInt 2] [];
            Call_spawn [1%nat; 0%nat] (IdInt 3) double [VInt 3] [];
            Call_spawn [] (IdInt 4) double [VInt 4] [];
            Call_spawn [] (IdInt 5) double [VInt 5] [];
            Call_join [1%nat]; Call_get_results]
           (__init__ (Globals true) ∅ 3))
  = list_to_map
      [(IdInt 1, (VNone, VNone, VNone, VInt 2));
       (IdInt 2, (VNone, VNone, VNone, VInt 4));
       (IdInt 3, (VNone, VNone, VNone, VInt 6));
       (IdInt 4, (VNone, VNone, VNone, VInt 8));
       (IdInt 5, (VNone, VNone, VNone, VInt 10))].
Proof. vm_compute. reflexivity. Qed.

(** ** [join] *)

(** C8. [join] leaves the heap, and with it the store, as they are and
    takes nothing off the queue: what was queued stays queued, followed
    by what the units that finished during the wait published.  Without
    a pool [join] changes nothing.  The entries reach the store with
    the next [get_results]. *)
Theorem join_does_not_drain G picks w :
  heap (join G picks w) = heap w
  ∧ _results (self (join G picks w)) = _results (self w)
  ∧ store (join G picks w) = store w
  ∧ (∃ done, running w ≡ₚ done
       ∧ _queue (self (join G picks w))
         = _queue (self w) ++ concat (published G <$> done))
  ∧ (_pool (self w) = None → join G picks w = w)
  ∧ store (get_results (join G picks w)).2
    = drain (_queue (self (join G picks w))) (store w).
Proof.
  assert (heap (join G picks w) = heap w
          ∧ _results (self (join G picks w)) = _results (self w)
          ∧ ∃ done, running w ≡ₚ done
              ∧ _queue (self (join G picks w))
                = _queue (self w) ++ concat (published G <$> done))
    as (Hh & Hr & Hq).
  { unfold join. destruct (_pool (self w)) eqn:Hp; [apply waitall_spec|].
    split_and!; try done. exists []. unfold running. rewrite Hp.
    simpl. by rewrite app_nil_r. }
  split_and!; try done.
  - apply join_store.
  - intros Hp. unfold join. by rewrite Hp.
  - rewrite get_results_store. unfold view. by rewrite join_store.
Qed.

(** ** The shape of an outcome *)

(** C9. Every entry on the queue after the wrapper ran was there before
    or is the one the wrapper published, under the unit's identifier:
    all three exception fields [None] and the return value as result,
    or the exception's type, value and traceback with result [None];
    [exc_type] is [None] exactly when the unit returned. *)
Theorem published_outcome_is_one_variant G id func args kwargs w x :
  x ∈ _queue (self (_spawner G id func args kwargs w).2) →
  x ∈ _queue (self w)
  ∨ (x.1 = id ∧ variant_exclusive (func args kwargs) x.2).
Proof.
  unfold _spawner, variant_exclusive.
  destruct (func args kwargs) as [v|e tb]; simpl.
  - rewrite elem_of_app, list_elem_of_singleton. intros [?| ->]; [by left|].
    right. simpl. split_and!; [done| |].
    + left. by exists v.
    + split; [by exists v|done].
  - destruct (except_Exception_Timeout G e); simpl; [|by left].
    rewrite elem_of_app, list_elem_of_singleton. intros [?| ->]; [by left|].
    right. simpl. split_and!; [done| |].
    + right. by exists e, tb.
    + split; [done|]. by intros [? ?].
Qed.

Lemma published_outcome_is_one_variant_witness :
  (IdStr "a",
   (VType ZeroDivisionError, VExc (Exn ZeroDivisionError "division by zero"),
    VTraceback ["_spawner"; "divide_by_zero"], VNone))
    ∈ _queue (self (_spawner (Globals true) (IdStr "a") divide_by_zero [] []
                      (__init__ (Globals true) ∅ 0)).2)
  ∧ variant_exclusive (divide_by_zero [] [])
      (VType ZeroDivisionError, VExc (Exn ZeroDivisionError "division by zero"),
       VTraceback ["_spawner"; "divide_by_zero"], VNone).
Proof.
  assert ((IdStr "a",
   (VType ZeroDivisionError, VExc (Exn ZeroDivisionError "division by zero"),
    VTraceback ["_spawner"; "divide_by_zero"], VNone))
    ∈ _queue (self (_spawner (Globals true) (IdStr "a") divide_by_zero [] []
                      (__init__ (Globals true) ∅ 0)).2)) as Hin.
  { simpl. apply list_elem_of_here. }
  split; [exact Hin|].
  destruct (published_outcome_is_one_variant _ _ _ _ _ _ _ Hin) as [Hx|[_ Hv]].
  - simpl in Hx. by apply elem_of_nil in Hx.
  - exact Hv.
Defined.

(** ** The returned dict is the engine's own *)

(** C10. [get_results] returns the reference kept in [self._results],
    which no call rebinds: a later call returns the same reference, and
    the dict reached through the earlier one shows what the later drain
    stored. *)
Theorem get_results_returns_the_store_itself G cs w :
  (get_results w).1 = _results (self w)
  ∧ (get_results (run_calls G cs (get_results w).2)).1 = (get_results w).1
  ∧ deref (heap (get_results (run_calls G cs (get_results w).2)).2)
          (get_results w).1
    = drain (_queue (self (run_calls G cs (get_results w).2)))
        (deref (heap (run_calls G cs (get_results w).2)) (get_results w).1)
  ∧ ∀ i o, (i, o) ∈ _queue (self (run_calls G cs (get_results w).2)) →
      i ∈ dom (deref (heap (get_results
                              (run_calls G cs (get_results w).2)).2)
                 (get_results w).1).
Proof.
  set (w1 := (get_results w).2). set (w2 := run_calls G cs w1).
  assert ((get_results w).1 = _results (self w)) as Hr0 by done.
  assert (_results (self w2) = _results (self w)) as Hr2.
  { destruct (run_calls_progress G cs w1) as (Hr & _). fold w2 in Hr.
    rewrite Hr. apply get_results_results. }
  assert (deref (heap (get_results w2).2) (get_results w).1
          = drain (_queue (self w2)) (deref (heap w2) (get_results w).1))
    as Hd.
  { rewrite Hr0, <- Hr2. pose proof (get_results_store w2) as Hs.
    unfold store at 1 in Hs. by rewrite get_results_results in Hs. }
  split_and!; [done| |done|].
  { change (get_results w2).1 with (_results (self w2)). by rewrite Hr2. }
  intros i o Hio. rewrite Hd, drain_dom, elem_of_union. right.
  apply elem_of_list_to_set, list_elem_of_fmap. by exists (i, o).
Qed.

Lemma get_results_returns_the_store_itself_witness :
  deref (heap (get_results
                 (run_calls (Globals false)
                    [Call_spawn [] (IdInt 7) double [VInt 7] []]
                    (get_results (__init__ (Globals false) ∅ 10)).2)).2)
        (get_results (__init__ (Globals false) ∅ 10)).1
    !! IdInt 7 = Some (VNone, VNone, VNone, VInt 14).
Proof.
  destruct (get_results_returns_the_store_itself (Globals false)
              [Call_spawn [] (IdInt 7) double [VInt 7] []]
              (__init__ (Globals false) ∅ 10)) as (_ & _ & -> & _).
  reflexivity.
Defined.

(** * Further properties of the engine *)

(** ** Construction *)

Section construction.
Context (G : globals).

Lemma pool_switch_pool_size picks w :
  pool_size <$> _pool (self (pool_switch G picks w))
    = pool_size <$> _pool (self w).
Proof.
  revert w. induction picks as [|n picks IH]; intros w; [done|].
  destruct (_pool (self w)) as [p|] eqn:Hp.
  2:{ by rewrite pool_switch_no_pool, Hp. }
  destruct (pool_running p !! n) as [t|] eqn:Hn.
  - rewrite (pool_switch_pick G _ _ _ _ _ Hp Hn), IH, run_task_pool.
    unfold set_running. simpl. by rewrite Hp.
  - by rewrite (pool_switch_skip G _ _ _ _ Hp Hn), IH, Hp.
Qed.

Lemma run_call_pool_size c w :
  pool_size <$> _pool (self (run_call G c w)) = pool_size <$> _pool (self w).
Proof.
  destruct c as [picks id func args kwargs| |picks]; simpl.
  - unfold spawn. destruct (_pool (self w)) as [p|] eqn:Hp; simpl.
    + rewrite pool_switch_pool_size. unfold spawn_n, set_running. simpl.
      by rewrite Hp.
    + change (_spawner G id func args kwargs w).2
        with (run_task G (Task id func args kwargs) w).
      by rewrite run_task_pool, Hp.
  - unfold get_results. simpl. by rewrite get_results_loop_self.
  - unfold join. destruct (_pool (self w)) as [p|] eqn:Hp; [|by rewrite Hp].
    unfold waitall. by rewrite !pool_switch_pool_size, Hp.
Qed.

Lemma run_calls_pool_size cs w :
  pool_size <$> _pool (self (run_calls G cs w)) = pool_size <$> _pool (self w).
Proof.
  revert w. induction cs as [|c cs IH]; intros w; [done|].
  change (run_calls G (c :: cs) w) with (run_calls G cs (run_call G c w)).
  by rewrite IH, run_call_pool_size.
Qed.

(** X1. The mode of an engine is decided by the constructor and stays:
    for a ceiling that is not negative, after any calls the engine has
    a pool exactly when it was built with a positive [concurrency] and
    eventlet's [GreenPool] was imported, the pool has the size given,
    and [self.concurrency] is still the number given. *)
Theorem mode_is_fixed_at_construction h c cs :
  0 ≤ c →
  concurrency (self (run_calls G cs (__init__ G h c))) = c
  ∧ (is_Some (_pool (self (run_calls G cs (__init__ G h c))))
     ↔ 0 < c ∧ GreenPool G = true)
  ∧ pool_size <$> _pool (self (run_calls G cs (__init__ G h c)))
    = if (0 <? c) && GreenPool G then Some c else None.
Proof.
  intros Hc0.
  destruct (run_calls_progress G cs (__init__ G h c)) as (_ & Hc & Hs & _).
  assert (negb (c =? 0) = (0 <? c)) as Hpos.
  { destruct (Z.eqb_spec c 0), (Z.ltb_spec 0 c); simpl; try done; lia. }
  split_and!.
  - by rewrite Hc.
  - rewrite Hs. unfold __init__. simpl. rewrite Hpos.
    destruct (Z.ltb_spec 0 c); simpl.
    + destruct (GreenPool G); simpl.
      * split; [done|by eauto].
      * split; [by intros [? ?]|by intros [_ ?]].
    + split; [by intros [? ?]|]. intros [? _]. lia.
  - rewrite run_calls_pool_size. unfold __init__. simpl. rewrite Hpos.
    by destruct ((0 <? c) && GreenPool G).
Qed.

(** X2. A new engine gets a dict of its own: the reference is none of
    those already in the heap, the dict is empty, and whatever is then
    called on the engine, every dict that existed before keeps its
    content. *)
Theorem new_engine_has_its_own_dict h c cs l :
  l ∈ dom h →
  _results (self (__init__ G h c)) ≠ l
  ∧ store (__init__ G h c) = ∅
  ∧ heap (run_calls G cs (__init__ G h c)) !! l = h !! l.
Proof.
  intros Hl.
  assert (_results (self (__init__ G h c)) ≠ l) as Hne.
  { unfold __init__. simpl. intros Heq. rewrite <- Heq in Hl.
    by apply is_fresh in Hl. }
  split_and!; [done| |].
  - unfold store, deref, __init__. simpl. by rewrite lookup_insert_eq.
  - destruct (run_calls_progress G cs (__init__ G h c))
      as (_ & _ & _ & Hh & _).
    rewrite Hh by done. unfold __init__. simpl.
    rewrite lookup_insert_ne; [done|]. exact Hne.
Qed.
End construction.

Lemma mode_is_fixed_at_construction_witness :
  0 ≤ 3
  ∧ pool_size <$> _pool (self (run_calls (Globals true)
                    [Call_spawn [0%nat] (IdInt 1) double [VInt 1] [];
                     Call_join []; Call_get_results]
                    (__init__ (Globals true) ∅ 3)))
    = Some 3.
Proof.
  split; [lia|].
  apply (mode_is_fixed_at_construction (Globals true) ∅ 3
           [Call_spawn [0%nat] (IdInt 1) double [VInt 1] [];
            Call_join []; Call_get_results]).
  lia.
Defined.

Lemma new_engine_has_its_own_dict_witness :
  store (__init__ (Globals true) (heap (__init__ (Globals true) ∅ 10)) 5) = ∅
  ∧ heap (run_calls (Globals true)
            [Call_spawn [0%nat] (IdInt 1) double [VInt 1] [];
             Call_get_results]
            (__init__ (Globals true) (heap (__init__ (Globals true) ∅ 10)) 5))
      !! _results (self (__init__ (Globals true) ∅ 10))
    = heap (__init__ (Globals true) ∅ 10)
        !! _results (self (__init__ (Globals true) ∅ 10)).
Proof.
  destruct (new_engine_has_its_own_dict (Globals true)
              (heap (__init__ (Globals true) ∅ 10)) 5
              [Call_spawn [0%nat] (IdInt 1) double [VInt 1] [];
               Call_get_results]
              (_results (self (__init__ (Globals true) ∅ 10))))
    as (_ & Hs & Hh).
  - vm_compute. set_solver.
  - split; [exact Hs|exact Hh].
Defined.

(** ** The queue *)

Section queue.
Context (G : globals).

Lemma run_call_no_pool c w :
  _pool (self w) = None → _pool (self (run_call G c w)) = None.
Proof. apply (run_calls_no_pool G [c]). Qed.

(** X5. Without a pool, and as long as [get_results] is not called,
    the queue holds what it held followed by what the spawned units
    published, in the order of the [spawn] calls; [join] adds
    nothing. *)
Theorem synchronous_queue_keeps_spawn_order cs w :
  _pool (self w) = None →
  Call_get_results ∉ cs →
  _queue (self (run_calls G cs w))
    = _queue (self w) ++ concat (published G <$> spawned cs).
Proof.
  revert w. induction cs as [|c cs IH]; intros w Hp Hcs.
  { simpl. by rewrite app_nil_r. }
  apply not_elem_of_cons in Hcs as [Hc Hcs].
  change (run_calls G (c :: cs) w) with (run_calls G cs (run_call G c w)).
  change (c :: cs) with ([c] ++ cs).
  rewrite spawned_app, fmap_app, concat_app, (assoc_L (++)).
  rewrite IH; [|by apply run_call_no_pool|done]. f_equal.
  destruct c as [picks id func args kwargs| |picks]; simpl.
  - unfold spawn. rewrite Hp.
    change (_spawner G id func args kwargs w).2
      with (run_task G (Task id func args kwargs) w).
    by rewrite run_task_queue, app_nil_r.
  - done.
  - unfold join. rewrite Hp. by rewrite app_nil_r.
Qed.

(** X6. [spawn] takes nothing off the queue and does not touch the
    heap: the queue afterwards is the queue before followed by what
    the units that finished during the call published, and those,
    with the units still unfinished, are the units unfinished before
    and the new one. *)
Theorem spawn_only_appends picks id func args kwargs w :
  heap (spawn G picks id func args kwargs w).2 = heap w
  ∧ ∃ done,
      running w ++ [Task id func args kwargs]
        ≡ₚ done ++ running (spawn G picks id func args kwargs w).2
      ∧ _queue (self (spawn G picks id func args kwargs w).2)
        = _queue (self w) ++ concat (published G <$> done).
Proof.
  unfold spawn. destruct (_pool (self w)) as [p|] eqn:Hp; simpl.
  - destruct (pool_switch_spec G picks (spawn_n (Task id func args kwargs) w))
      as (Hh & _ & _ & _ & done & Hperm & Hq).
    split; [done|]. exists done. split; [|done].
    rewrite <- Hperm. unfold spawn_n.
    rewrite set_running_running; [done|by rewrite Hp].
  - change (_spawner G id func args kwargs w).2
      with (run_task G (Task id func args kwargs) w).
    rewrite run_task_heap, run_task_queue, run_task_running.
    split; [done|]. exists [Task id func args kwargs].
    unfold running. rewrite Hp. simpl. by rewrite !app_nil_r.
Qed.

Lemma pool_switch_idle picks w :
  running w = [] → pool_switch G picks w = w.
Proof.
  intros Hrun. induction picks as [|n picks IH]; [done|].
  destruct (_pool (self w)) as [p|] eqn:Hp.
  - unfold running in Hrun. rewrite Hp in Hrun.
    rewrite (pool_switch_skip G n picks w p Hp); [done|].
    by rewrite Hrun.
  - by apply pool_switch_no_pool.
Qed.

(** X7. [join] on an engine with no unfinished unit changes nothing;
    so a second [join] after a first changes nothing. *)
Theorem join_with_nothing_unfinished picks picks' w :
  (running w = [] → join G picks w = w)
  ∧ join G picks' (join G picks w) = join G picks w.
Proof.
  assert (∀ p v, running v = [] → join G p v = v) as Hidle.
  { intros p v Hrun. unfold join. destruct (_pool (self v)); [|done].
    unfold waitall. rewrite (pool_switch_idle p v) by done.
    by rewrite Hrun. }
  split; [apply Hidle|]. apply Hidle, join_running.
Qed.

Lemma drain_lookup_Some q d i o :
  drain q d !! i = Some o → (i, o) ∈ q ∨ d !! i = Some o.
Proof.
  revert d. induction q as [|[j v] q IH]; intros d; simpl; [by right|].
  intros [Hq|Hd]%IH.
  - left. by right.
  - destruct (decide (j = i)) as [->|Hne].
    + rewrite lookup_insert_eq in Hd. injection Hd as ->. left. by left.
    + rewrite lookup_insert_ne in Hd by done. by right.
Qed.

(** X8. [get_results] moves every queued entry: the queue is empty
    afterwards, the store has an entry for each identifier it had and
    each identifier that was queued, and each entry of the store
    either was in the store or was queued. *)
Theorem get_results_moves_every_entry w :
  _queue (self (get_results w).2) = []
  ∧ dom (store (get_results w).2)
    = dom (store w) ∪ list_to_set (_queue (self w)).*1
  ∧ ∀ i o, store (get_results w).2 !! i = Some o →
      (i, o) ∈ _queue (self w) ∨ store w !! i = Some o.
Proof.
  split_and!.
  - apply get_results_queue.
  - rewrite get_results_store. apply drain_dom.
  - intros i o. rewrite get_results_store. apply drain_lookup_Some.
Qed.
End queue.

Lemma synchronous_queue_keeps_spawn_order_witness :
  _queue (self (run_calls (Globals false)
                  [Call_spawn [] (IdInt 2) double [VInt 2] [];
                   Call_join [];
                   Call_spawn [] (IdInt 1) double [VInt 1] []]
                  (__init__ (Globals false) ∅ 10)))
  = [(IdInt 2, (VNone, VNone, VNone, VInt 4));
     (IdInt 1, (VNone, VNone, VNone, VInt 2))].
Proof.
  rewrite (synchronous_queue_keeps_spawn_order (Globals false)
             [Call_spawn [] (IdInt 2) double [VInt 2] [];
              Call_join [];
              Call_spawn [] (IdInt 1) double [VInt 1] []]
             (__init__ (Globals false) ∅ 10)).
  - reflexivity.
  - reflexivity.
  - intros H. repeat (apply elem_of_cons in H as [H|H]; [discriminate H|]).
    by apply elem_of_nil in H.
Defined.

(** ** Where the entries of the store come from *)

Section provenance.
Context (G : globals).

Lemma elem_of_concat_published_inv ts x :
  x ∈ concat (published G <$> ts) → ∃ t, t ∈ ts ∧ x ∈ published G t.
Proof.
  induction ts as [|t ts IH]; simpl.
  - by intros ?%elem_of_nil.
  - rewrite elem_of_app. intros [Hx|Hx].
    + exists t. split; [by left|done].
    + destruct (IH Hx) as (t' & Ht' & Hx'). exists t'. split; [by right|done].
Qed.

Lemma elem_of_concat_published_intro ts t x :
  t ∈ ts → x ∈ published G t → x ∈ concat (published G <$> ts).
Proof.
  intros Ht Hx. induction Ht as [t ts|t t' ts _ IH]; simpl;
    rewrite elem_of_app; [by left|right; by apply IH].
Qed.

Lemma init_accounted ts h c : accounted G ts (__init__ G h c).
Proof.
  unfold accounted. rewrite init_running. split_and!.
  - intros i o. unfold store, deref, __init__. simpl.
    by rewrite lookup_insert_eq.
  - intros x. unfold __init__. simpl. by intros ?%elem_of_nil.
  - intros t. by intros ?%elem_of_nil.
Qed.

Lemma run_call_accounted ts c w :
  accounted G ts w → (∀ t, t ∈ spawned [c] → t ∈ ts) →
  accounted G ts (run_call G c w).
Proof.
  intros (Hst & Hqu & Hru) Hnew.
  destruct (run_call_progress G c w)
    as (_ & _ & _ & _ & done & Hperm & _ & Hq').
  assert (∀ t, t ∈ done ++ running (run_call G c w) → t ∈ ts) as Hts.
  { intros t. rewrite <- Hperm, elem_of_app. intros [?|?]; auto. }
  unfold accounted. split_and!.
  - intros i o. rewrite run_call_store.
    assert (view w !! i = Some o → (i, o) ∈ concat (published G <$> ts)).
    { unfold view. intros [?|?]%drain_lookup_Some; auto. }
    destruct c; auto.
  - intros x Hx. destruct (Hq' x Hx) as [?|Hd]; [by auto|].
    apply elem_of_concat_published_inv in Hd as (t & Ht & Hxt).
    apply (elem_of_concat_published_intro ts t); [|done].
    apply Hts, elem_of_app. by left.
  - intros t Ht. apply Hts, elem_of_app. by right.
Qed.

Lemma run_calls_accounted ts cs w :
  accounted G ts w → (∀ t, t ∈ spawned cs → t ∈ ts) →
  accounted G ts (run_calls G cs w).
Proof.
  revert w. induction cs as [|c cs IH]; intros w Hacc Hsub; [done|].
  change (run_calls G (c :: cs) w) with (run_calls G cs (run_call G c w)).
  change (c :: cs) with ([c] ++ cs) in Hsub.
  setoid_rewrite spawned_app in Hsub. setoid_rewrite elem_of_app in Hsub.
  apply IH; [apply run_call_accounted|]; auto.
Qed.

(** X9. Whatever was called on an engine since it was built, every
    entry of its store is the outcome of a unit that was given to
    [spawn] under that identifier: the unit returned the stored result
    and the three exception fields are [None], or it raised an
    exception the handler takes and the entry holds its type, the
    exception and the traceback, with result [None]. *)
Theorem stored_entry_comes_from_a_spawned_unit h c cs i o :
  store (run_calls G cs (__init__ G h c)) !! i = Some o →
  ∃ t, t ∈ spawned cs ∧ task_ident t = i
    ∧ ((∃ v, task_func t (task_args t) (task_kwargs t) = Returned v
          ∧ o = (VNone, VNone, VNone, v))
       ∨ (∃ e tb, task_func t (task_args t) (task_kwargs t) = Raised e tb
            ∧ except_Exception_Timeout G e = true
            ∧ o = (VType (exn_class e), VExc e, VTraceback tb, VNone))).
Proof.
  intros Hio.
  destruct (run_calls_accounted (spawned cs) cs (__init__ G h c))
    as (Hst & _); [apply init_accounted|done|].
  apply Hst, elem_of_concat_published_inv in Hio as (t & Ht & Hx).
  exists t. split; [done|]. revert Hx. rewrite published_outcome.
  unfold outcome_of.
  destruct (task_func t (task_args t) (task_kwargs t)) as [v|e tb].
  - intros [= -> ->]%list_elem_of_singleton. split; [done|]. left. by exists v.
  - destruct (except_Exception_Timeout G e) eqn:He.
    + intros [= -> ->]%list_elem_of_singleton. split; [done|].
      right. by exists e, tb.
    + by intros ?%elem_of_nil.
Qed.

(** X10. No unit is lost: a unit given to [spawn] on an engine, which
    returns or raises what the handler takes, is still unfinished, or
    its identifier is on the queue, or its identifier is in the
    store. *)
Theorem spawned_unit_is_unfinished_queued_or_stored h c cs t :
  t ∈ spawned cs → handled G t →
  t ∈ running (run_calls G cs (__init__ G h c))
  ∨ task_ident t ∈ (_queue (self (run_calls G cs (__init__ G h c)))).*1
  ∨ task_ident t ∈ dom (store (run_calls G cs (__init__ G h c))).
Proof.
  intros Ht [o Ho].
  destruct (run_calls_progress G cs (__init__ G h c))
    as (_ & _ & _ & _ & done & Hperm & Hv & _).
  rewrite init_running, init_view in *. simpl in Hperm.
  rewrite Hperm, elem_of_app in Ht. destruct Ht as [Ht|Ht]; [|by left].
  right.
  assert (task_ident t ∈ dom (view (run_calls G cs (__init__ G h c)))) as Hd.
  { rewrite Hv, drain_dom, elem_of_union. right.
    apply elem_of_list_to_set, list_elem_of_fmap.
    exists (task_ident t, o). split; [done|].
    by apply elem_of_concat_published. }
  unfold view in Hd. rewrite drain_dom, elem_of_union in Hd.
  rewrite elem_of_list_to_set in Hd. tauto.
Qed.

End provenance.

Lemma stored_entry_comes_from_a_spawned_unit_witness :
  store (run_calls (Globals true)
           [Call_spawn [0%nat] (IdStr "a") divide_by_zero [] [];
            Call_get_results]
           (__init__ (Globals true) ∅ 2)) !! IdStr "a"
    = Some (VType ZeroDivisionError,
            VExc (Exn ZeroDivisionError "division by zero"),
            VTraceback ["_spawner"; "divide_by_zero"], VNone)
  ∧ ∃ t, t ∈ spawned [Call_spawn [0%nat] (IdStr "a") divide_by_zero [] [];
                      Call_get_results]
      ∧ task_ident t = IdStr "a".
Proof.
  assert (store (run_calls (Globals true)
           [Call_spawn [0%nat] (IdStr "a") divide_by_zero [] [];
            Call_get_results]
           (__init__ (Globals true) ∅ 2)) !! IdStr "a"
    = Some (VType ZeroDivisionError,
            VExc (Exn ZeroDivisionError "division by zero"),
            VTraceback ["_spawner"; "divide_by_zero"], VNone)) as Hst.
  { vm_compute. reflexivity. }
  split; [exact Hst|].
  destruct (stored_entry_comes_from_a_spawned_unit _ _ _ _ _ _ Hst)
    as (t & Ht & Hi & _).
  by exists t.
Defined.

Lemma spawned_unit_is_unfinished_queued_or_stored_witness :
  handled (Globals true) (Task (IdInt 1) double [VInt 1] [])
  ∧ (Task (IdInt 1) double [VInt 1] []
       ∈ running (run_calls (Globals true)
                    [Call_spawn [] (IdInt 1) double [VInt 1] []]
                    (__init__ (Globals true) ∅ 2))
     ∨ IdInt 1 ∈ (_queue (self (run_calls (Globals true)
                    [Call_spawn [] (IdInt 1) double [VInt 1] []]
                    (__init__ (Globals true) ∅ 2)))).*1
     ∨ IdInt 1 ∈ dom (store (run_calls (Globals true)
                    [Call_spawn [] (IdInt 1) double [VInt 1] []]
                    (__init__ (Globals true) ∅ 2)))).
Proof.
  assert (handled (Globals true) (Task (IdInt 1) double [VInt 1] [])) as Hh.
  { by eexists. }
  split; [exact Hh|].
  apply (spawned_unit_is_unfinished_queued_or_stored (Globals true) ∅ 2
           [Call_spawn [] (IdInt 1) double [VInt 1] []]
           (Task (IdInt 1) double [VInt 1] [])); [|exact Hh].
  apply list_elem_of_here.
Defined.

(** ** Polling *)

Section polling.
Context (G : globals).

Lemma view_run_task t w :
  view (run_task G t w) = drain (published G t) (view w).
Proof.
  unfold view. by rewrite run_task_queue, run_task_store, drain_app.
Qed.

Lemma same_up_to_draining_get_results w :
  same_up_to_draining (get_results w).2 w.
Proof.
  split.
  - unfold get_results. simpl. by rewrite get_results_loop_self.
  - unfold view at 1. by rewrite get_results_queue, get_results_store.
Qed.

Lemma same_up_to_draining_trans w1 w2 w3 :
  same_up_to_draining w1 w2 → same_up_to_draining w2 w3 →
  same_up_to_draining w1 w3.
Proof. intros [? ?] [? ?]. split; congruence. Qed.

Lemma same_up_to_draining_sym w1 w2 :
  same_up_to_draining w1 w2 → same_up_to_draining w2 w1.
Proof. by intros [? ?]. Qed.

Lemma same_up_to_draining_set_running ts w w' :
  same_up_to_draining w w' →
  same_up_to_draining (set_running ts w) (set_running ts w').
Proof.
  intros [Hp Hv]. split.
  - unfold set_running. simpl. by rewrite Hp.
  - exact Hv.
Qed.

Lemma same_up_to_draining_run_task t w w' :
  same_up_to_draining w w' →
  same_up_to_draining (run_task G t w) (run_task G t w').
Proof.
  intros [Hp Hv]. split.
  - by rewrite !run_task_pool.
  - by rewrite !view_run_task, Hv.
Qed.

Lemma same_up_to_draining_pool_switch picks w w' :
  same_up_to_draining w w' →
  same_up_to_draining (pool_switch G picks w) (pool_switch G picks w').
Proof.
  revert w w'. induction picks as [|n picks IH]; intros w w' Hs; [done|].
  pose proof Hs as [Hp _].
  destruct (_pool (self w)) as [p|] eqn:Hpw.
  2:{ by rewrite !pool_switch_no_pool. }
  symmetry in Hp. destruct (pool_running p !! n) as [t|] eqn:Hn.
  - rewrite (pool_switch_pick G _ _ _ _ _ Hpw Hn),
      (pool_switch_pick G _ _ _ _ _ Hp Hn).
    by apply IH, same_up_to_draining_run_task,
      same_up_to_draining_set_running.
  - rewrite (pool_switch_skip G _ _ _ _ Hpw Hn),
      (pool_switch_skip G _ _ _ _ Hp Hn).
    by apply IH.
Qed.

Lemma same_up_to_draining_running w w' :
  same_up_to_draining w w' → running w = running w'.
Proof. intros [Hp _]. unfold running. by rewrite Hp. Qed.

Lemma same_up_to_draining_run_call c w w' :
  same_up_to_draining w w' →
  same_up_to_draining (run_call G c w) (run_call G c w').
Proof.
  intros Hs. pose proof Hs as [Hp _].
  destruct c as [picks id func args kwargs| |picks]; simpl.
  - unfold spawn. rewrite <- Hp. destruct (_pool (self w)); simpl.
    + apply same_up_to_draining_pool_switch. unfold spawn_n.
      rewrite (same_up_to_draining_running w w' Hs).
      by apply same_up_to_draining_set_running.
    + by apply (same_up_to_draining_run_task (Task id func args kwargs)).
  - eapply same_up_to_draining_trans;
      [apply same_up_to_draining_get_results|].
    eapply same_up_to_draining_trans; [exact Hs|].
    apply same_up_to_draining_sym, same_up_to_draining_get_results.
  - unfold join. rewrite <- Hp. destruct (_pool (self w)); [|done].
    unfold waitall.
    rewrite (same_up_to_draining_running (pool_switch G picks w)
               (pool_switch G picks w'));
      by repeat apply same_up_to_draining_pool_switch.
Qed.

Lemma same_up_to_draining_without_get_results cs w w' :
  same_up_to_draining w w' →
  same_up_to_draining (run_calls G cs w)
    (run_calls G (without_get_results cs) w').
Proof.
  revert w w'. induction cs as [|c cs IH]; intros w w' Hs; [done|].
  change (run_calls G (c :: cs) w) with (run_calls G cs (run_call G c w)).
  unfold without_get_results. rewrite filter_cons.
  destruct c as [picks id func args kwargs| |picks]; simpl.
  - apply IH. by apply (same_up_to_draining_run_call (Call_spawn _ _ _ _ _)).
  - apply IH. eapply same_up_to_draining_trans; [|exact Hs].
    apply same_up_to_draining_get_results.
  - apply IH. by apply (same_up_to_draining_run_call (Call_join _)).
Qed.

(** X12. Calling [get_results] in between does not change what a later
    [get_results] returns: with the same scheduling, leaving the
    earlier [get_results] calls out gives the same store after the
    final one, and the same units still unfinished. *)
Theorem polling_does_not_change_the_final_store cs w :
  store (get_results (run_calls G cs w)).2
    = store (get_results (run_calls G (without_get_results cs) w)).2
  ∧ running (run_calls G cs w)
    = running (run_calls G (without_get_results cs) w).
Proof.
  assert (same_up_to_draining (run_calls G cs w)
            (run_calls G (without_get_results cs) w)) as Hs.
  { by apply same_up_to_draining_without_get_results. }
  split.
  - rewrite !get_results_store. by destruct Hs.
  - by apply same_up_to_draining_running.
Qed.
End polling.

(** ** The size of the store *)

Section bound.

Lemma size_list_to_set_le (l : list ident) :
  (size (list_to_set (C := gset ident) l) ≤ length l)%nat.
Proof.
  induction l as [|x l IH].
  - rewrite list_to_set_nil, size_empty. done.
  - rewrite list_to_set_cons, size_union_alt, size_singleton. simpl.
    assert (list_to_set (C := gset ident) l ∖ {[x]} ⊆ list_to_set l)
      as Hle%subseteq_size by set_solver.
    lia.
Qed.

(** X14. The store of an engine never has an identifier that was not
    given to [spawn], and never more entries than units were
    spawned. *)
Theorem store_is_bounded_by_the_spawned_units G h c cs :
  dom (store (run_calls G cs (__init__ G h c)))
    ⊆ list_to_set (task_ident <$> spawned cs)
  ∧ (size (store (run_calls G cs (__init__ G h c)))
     ≤ length (spawned cs))%nat.
Proof.
  assert (dom (store (run_calls G cs (__init__ G h c)))
            ⊆ list_to_set (task_ident <$> spawned cs)) as Hsub.
  { intros i [o Hio]%elem_of_dom.
    destruct (run_calls_accounted G (spawned cs) cs (__init__ G h c))
      as (Hst & _); [apply init_accounted|done|].
    apply Hst, concat_published_ident in Hio.
    by apply elem_of_list_to_set. }
  split; [done|].
  rewrite <- size_dom. etrans; [by apply subseteq_size|].
  etrans; [apply size_list_to_set_le|]. by rewrite length_fmap.
Qed.
End bound.
